(** * Static control flow: [static_if], [static_for] and the Y combinator

    A shallow embedding of the compile-time control-flow combinators of
    [static_control_flow/code/impl]: the branch selector [static_if]
    ([static_if_impl<true>], [static_if_impl<false>], [static_if_result]),
    the loop state ([impl::state], [make_state], [advance_state]), the
    self-reference adapter [y_combinator] and the loop engine [static_for].

    The loop state is an empty class template: a state is the types it
    is instantiated with, and an accumulator is read back from its type
    alone.  Accumulators therefore come with [value_init], the object
    [TAcc{}] of the type of a value.

    Branch bodies and loop bodies are C++ callables and may have effects
    (the examples print, or write a [volatile int]); they are modelled as
    computations over an abstract world [W].  Calls that the compiler would
    refuse (no matching call operator) are the outcome [Rejected]; the
    recursion through [y_combinator] is bounded by a budget and a budget
    that runs out is the outcome [Diverged]. *)

From Stdlib Require Import List Bool Arith NArith ZArith Lia.
Import ListNotations.

(** ** Computations *)

Inductive outcome (W A : Type) : Type :=
| Returned (a : A) (w : W)
| Diverged
| Rejected.

Arguments Returned {W A} a w.
Arguments Diverged {W A}.
Arguments Rejected {W A}.

Definition Eff (W A : Type) : Type := W -> outcome W A.

Definition ret {W A : Type} (a : A) : Eff W A :=
  fun w => Returned a w.

Definition bind {W A B : Type} (c : Eff W A) (k : A -> Eff W B) : Eff W B :=
  fun w =>
    match c w with
    | Returned a w' => k a w'
    | Diverged => Diverged
    | Rejected => Rejected
    end.

Definition diverge {W A : Type} : Eff W A := fun _ => Diverged.

Definition reject {W A : Type} : Eff W A := fun _ => Rejected.

Declare Scope eff_scope.
Delimit Scope eff_scope with eff.
Notation "x <- c ;; k" := (bind c (fun x => k))
  (at level 61, c at next level, right associativity) : eff_scope.
Open Scope eff_scope.

(** [bool_v<b>]: the integral constant whose conversion to [bool] yields
    [b]; the conversion has no effect. *)
Definition bool_v {W : Type} (b : bool) : Eff W bool := ret b.

(** What a call expression on a chain yields: the selected branch's value,
    or nothing at all (the [void] of [static_if_impl<false>::operator()]). *)
Inductive call_result (R : Type) : Type :=
| no_result
| result (r : R).

Arguments no_result {R}.
Arguments result {R} r.

(** Using the value of a call expression ([return static_if(...)...(self)]
    where a value is expected): a [void] there is ill-formed. *)
Definition value_of {W R : Type} (r : call_result R) : Eff W R :=
  match r with
  | result v => ret v
  | no_result => reject
  end.

(** ** [static_if] *)

Section StaticIf.

Context {W Args R : Type}.

(** A branch body ([TF], [TFunctionToCall]). *)
Definition branch : Type := Args -> Eff W R.

(** A predicate object ([TPredicate]): the library reads it only through
    the constant expression [TPredicate{}] converted to [bool]. *)
Definition predicate : Type := Eff W bool.

(** The three class templates a chain expression can have as its type. *)
Inductive chain : Type :=
| static_if_impl (TPredicateResult : bool)
| static_if_result (f : branch).

Definition make_static_if_result (f : branch) : chain :=
  static_if_result f.

(** [static_if(TPredicate)]: [impl::static_if_impl<TPredicate{}>{}]. *)
Definition static_if (p : predicate) : Eff W chain :=
  b <- p ;; ret (static_if_impl b).

Definition then_ (c : chain) (f : branch) : chain :=
  match c with
  | static_if_impl true => make_static_if_result f
  | static_if_impl false => c
  | static_if_result _ => c
  end.

Definition else_ (c : chain) (f : branch) : chain :=
  match c with
  | static_if_impl true => c
  | static_if_impl false => make_static_if_result f
  | static_if_result _ => c
  end.

Definition else_if (c : chain) (p : predicate) : Eff W chain :=
  match c with
  | static_if_impl true => ret c
  | static_if_impl false => static_if p
  | static_if_result _ => ret c
  end.

(** The call operator.  [static_if_impl<true>] declares none;
    [static_if_impl<false>] has the empty one; [static_if_result]
    inherits the one of the branch it was made from. *)
Definition call (c : chain) (args : Args) : Eff W (call_result R) :=
  match c with
  | static_if_impl true => reject
  | static_if_impl false => ret no_result
  | static_if_result f => r <- f args ;; ret (result r)
  end.

(** *** Chain expressions *)

(** A chain-extension operation, as written after a chain value. *)
Inductive extension : Type :=
| op_then (f : branch)
| op_else_if (p : predicate)
| op_else (f : branch).

Definition extend (c : chain) (op : extension) : Eff W chain :=
  match op with
  | op_then f => ret (then_ c f)
  | op_else_if p => else_if c p
  | op_else f => ret (else_ c f)
  end.

Fixpoint extend_all (c : chain) (ops : list extension) : Eff W chain :=
  match ops with
  | [] => ret c
  | op :: ops' => c' <- extend c op ;; extend_all c' ops'
  end.

(** The branch chain of the data model: an [if] branch, [else_if]
    branches in declaration order, and an optional [else_] branch. *)
Record branch_chain : Type := {
  if_branch : predicate * branch;
  else_if_branches : list (predicate * branch);
  else_branch : option branch
}.

(** [.else_if(p).then(f)] for each further branch. *)
Fixpoint else_ifs (c : chain) (bs : list (predicate * branch)) : Eff W chain :=
  match bs with
  | [] => ret c
  | (p, f) :: bs' => c' <- else_if c p ;; else_ifs (then_ c' f) bs'
  end.

(** The closing [.else_(d)], when the expression has one. *)
Definition finish (d : option branch) (c : chain) : chain :=
  match d with
  | Some h => else_ c h
  | None => c
  end.

(** [static_if(p0).then(f0).else_if(p1).then(f1)....else_(d)]. *)
Definition build (bc : branch_chain) : Eff W chain :=
  c <- static_if (fst (if_branch bc)) ;;
  c' <- else_ifs (then_ c (snd (if_branch bc))) (else_if_branches bc) ;;
  ret (finish (else_branch bc) c').

(** The whole expression, terminal call included. *)
Definition realize (bc : branch_chain) (args : Args) : Eff W (call_result R) :=
  c <- build bc ;; call c args.

(** First-match-wins selection, as the data model words it: predicates
    are tried in declaration order, the branch of the first true one is
    run, the default branch if none is, and nothing without a default. *)
Fixpoint first_match (bs : list (predicate * branch)) (d : option branch)
    (args : Args) : Eff W (call_result R) :=
  match bs with
  | [] =>
      match d with
      | Some f => r <- f args ;; ret (result r)
      | None => ret no_result
      end
  | (p, f) :: bs' =>
      b <- p ;;
      if b then r <- f args ;; ret (result r) else first_match bs' d args
  end.

End StaticIf.

Arguments chain : clear implicits.
Arguments branch : clear implicits.
Arguments predicate : clear implicits.
Arguments extension : clear implicits.
Arguments branch_chain : clear implicits.

(** ** The loop state *)

(** [impl::action::a_continue] and [impl::action::a_break]. *)
Inductive action : Type :=
| a_continue
| a_break.

(** [std::is_same<decltype(a), impl::action::a_break>{}]. *)
Definition is_a_break (a : action) : bool :=
  match a with
  | a_break => true
  | a_continue => false
  end.

(** [std::size_t] is taken to be 64 bits wide. *)
Definition size_t_bits : N := 64.

(** [sz_v<n>]: the integral constant of type [std::size_t] for the
    constant expression [n], reduced to the range of [std::size_t]. *)
Definition sz_v (n : N) : N := (n mod 2 ^ size_t_bits)%N.

(** The values an accumulator can have.  A state does not hold its
    accumulator, only the accumulator's type [TAcc], and [accumulator()]
    returns [TAcc{}]: [value_init a] is that object, for [TAcc] the type
    of [a].  Its type is [TAcc] again. *)
Class Accumulator (Acc : Type) : Type := {
  value_init : Acc -> Acc;
  value_init_idem : forall a, value_init (value_init a) = value_init a
}.

(** Compile-time accumulators: integral constants such as [sz_v<n>] and
    empty classes such as [nothing], each value the only one of its
    type. *)
#[global] Instance compile_time_constants (A : Type) : Accumulator A := {
  value_init := fun a => a;
  value_init_idem := fun _ => eq_refl
}.

(** Run-time [int] accumulators: one type for all the values, and
    [int{}] is [0]. *)
Definition run_time_int : Accumulator Z := {|
  value_init := fun _ => 0%Z;
  value_init_idem := fun _ => eq_refl
|}.

(** [impl::state<TItr, TAcc, TAction>], an empty class: a state is its
    three template arguments.  [TItr] is a [sz_<n>], kept as [n]; [TAcc]
    is kept as the object [TAcc{}] that [accumulator()] returns;
    [TAction] is one of the two action tags. *)
Record state (Acc : Type) : Type := state_of {
  iteration : N;
  accumulator : Acc;
  next_action : action
}.

Arguments state_of {Acc} iteration accumulator next_action.
Arguments iteration {Acc} s.
Arguments accumulator {Acc} s.
Arguments next_action {Acc} s.

Section State.

Context {Acc : Type} {HA : Accumulator Acc}.

(** [impl::make_state(TItr, TAcc, TAction)]: the state of the types of
    its arguments; the value of the accumulator is dropped. *)
Definition make_state (itr : N) (a : Acc) (na : action) : state Acc :=
  state_of itr (value_init a) na.

Definition advance_state (s : state Acc) (a : Acc) (na : action) : state Acc :=
  make_state (sz_v (iteration s + 1)) a na.

Definition continue_ (s : state Acc) (new_acc : Acc) : state Acc :=
  advance_state s new_acc a_continue.

(** The overload of [continue_] without a parameter. *)
Definition continue_0 (s : state Acc) : state Acc :=
  continue_ s (accumulator s).

Definition break_ (s : state Acc) (new_acc : Acc) : state Acc :=
  advance_state s new_acc a_break.

(** The overload of [break_] without a parameter. *)
Definition break_0 (s : state Acc) : state Acc :=
  break_ s (accumulator s).

End State.

(** ** [y_combinator] *)

Section YCombinator.

Context {W Args R : Type}.

(** [y_combinator(f)(xs...)] calls [_f] with a [std::ref] to the adapter
    itself, followed by [xs...].  [fuel] bounds how deep the calls through
    the adapter may nest. *)
Fixpoint y_combinator (fuel : nat)
    (f : (Args -> Eff W R) -> Args -> Eff W R) (xs : Args) : Eff W R :=
  match fuel with
  | O => diverge
  | S fuel' => f (y_combinator fuel' f) xs
  end.

(** [o] is what a smaller budget yields where a larger one yields [o']:
    the same outcome, unless the smaller budget ran out. *)
Definition below {A : Type} (o o' : outcome W A) : Prop :=
  o = Diverged \/ o = o'.

Definition approximates (g g' : Args -> Eff W R) : Prop :=
  forall xs w, below (g xs w) (g' xs w).

(** A callable that uses its first parameter only by calling it. *)
Definition monotone (f : (Args -> Eff W R) -> Args -> Eff W R) : Prop :=
  forall g g', approximates g g' -> approximates (f g) (f g').

End YCombinator.

(** ** [static_for] *)

Section StaticFor.

Context {W X Acc : Type} {HA : Accumulator Acc}.

(** A loop body ([TFBody]): called as [body(state, x)]. *)
Definition loop_body : Type := state Acc -> X -> Eff W (state Acc).

(** What [step] is called with besides [self]: the state and the pack
    [x, xs...] of the arguments still to visit. *)
Definition step_args : Type := (state Acc * list X)%type.

(** The [step] lambda of [static_for].  It needs [x]: a call with an empty
    pack matches no call operator. *)
Definition step (body : loop_body)
    (self : step_args -> Eff W Acc) (args : step_args) : Eff W Acc :=
  let (st, pack) := args in
  match pack with
  | [] => reject
  | x :: xs =>
      next_state <- body st x ;;
      let last_iteration := Nat.eqb (length xs) 0 in
      let must_break := is_a_break (next_action next_state) in
      c <- static_if (bool_v (must_break || last_iteration)) ;;
      r <- call
             (else_
                (then_ c (fun _ => ret (accumulator next_state)))
                (fun xself => xself (next_state, xs)))
             self ;;
      value_of r
  end.

(** [static_for(body)(accumulator)(xs...)]. *)
Definition static_for (fuel : nat) (body : loop_body)
    (accumulator0 : Acc) (xs : list X) : Eff W Acc :=
  c <- static_if (bool_v (Nat.eqb (length xs) 0)) ;;
  r <- call
         (else_
            (then_ c (fun _ => ret accumulator0))
            (fun a : _ * list X =>
               let (xstep, ys) := a in
               let initial_state := make_state (sz_v 0) accumulator0 a_continue in
               y_combinator fuel xstep (initial_state, ys)))
         (step body, xs) ;;
  value_of r.

(** The state the loop starts from. *)
Definition initial_state (accumulator0 : Acc) : state Acc :=
  make_state (sz_v 0) accumulator0 a_continue.

(** The loop as a fold that stops at the first state whose next action
    is a break. *)
Fixpoint fold_until_break (body : loop_body) (s : state Acc) (xs : list X)
    : Eff W (state Acc) :=
  match xs with
  | [] => ret s
  | x :: xs' =>
      s' <- body s x ;;
      if is_a_break (next_action s') then ret s'
      else fold_until_break body s' xs'
  end.

(** A body without effects. *)
Definition pure_body (b : state Acc -> X -> state Acc) : loop_body :=
  fun s x => ret (b s x).

End StaticFor.

Arguments loop_body : clear implicits.

Section PureLoop.

Context {X Acc : Type} {HA : Accumulator Acc}.

Variable b : state Acc -> X -> state Acc.

(** How many elements of [xs] are passed to the body when the loop starts
    in state [s]: all of them, or those up to and including the first one
    on which the body answers with a break. *)
Fixpoint visited (s : state Acc) (xs : list X) : nat :=
  match xs with
  | [] => O
  | x :: xs' =>
      S (if is_a_break (next_action (b s x)) then O else visited (b s x) xs')
  end.

(** The calls [body(state, x)] the loop makes, in the order it makes them. *)
Fixpoint calls_of (s : state Acc) (xs : list X) : list (state Acc * X) :=
  match xs with
  | [] => []
  | x :: xs' =>
      (s, x) ::
      (if is_a_break (next_action (b s x)) then [] else calls_of (b s x) xs')
  end.

(** What the loop returns: on an empty pack the accumulator it was
    given, and otherwise [accumulator()] of the state it stops in. *)
Definition loop_result (init : Acc) (xs : list X) : Acc :=
  match xs with
  | [] => init
  | _ :: _ =>
      accumulator
        (fold_left b
           (firstn (visited (initial_state init) xs) xs)
           (initial_state init))
  end.

(** The body, recording each call [body(state, x)] it receives. *)
Definition traced : loop_body (list (state Acc * X)) X Acc :=
  fun s x w => Returned (b s x) (w ++ [(s, x)]).

(** The body produces its answer from the state it received with one of
    [continue_] and [break_]. *)
Definition advances : Prop :=
  forall s x, exists a, b s x = continue_ s a \/ b s x = break_ s a.

End PureLoop.

(** The body of the examples: it adds [x] to the accumulator and goes on,
    unless [x] is the sentinel [-999], on which it breaks. *)
Definition add_unless_sentinel (s : state Z) (x : Z) : state Z :=
  if (x =? -999)%Z then break_0 s
  else continue_ s (accumulator s + x)%Z.


(** A body that advances the state it is given twice:
    [return state.continue_().continue_();]. *)
Definition continue_twice (s : state Z) (x : Z) : state Z :=
  continue_0 (continue_0 s).

(** ** Instrumented chains *)

Inductive event : Type :=
| Evaluated (i : nat)
| Invoked (i : nat)
| InvokedDefault.

(** Predicate number [i], of value [b]: reading it is recorded. *)
Definition probe (i : nat) (b : bool) : predicate (list event) :=
  fun w => Returned b (w ++ [Evaluated i]).

(** A branch that records its being called and returns its own mark. *)
Definition marked {Args : Type} (e : event) : branch (list event) Args event :=
  fun _ w => Returned e (w ++ [e]).

Fixpoint numbered {Args : Type} (i : nat) (bs : list bool)
    : list (predicate (list event) * branch (list event) Args event) :=
  match bs with
  | [] => []
  | b :: bs' => (probe i b, marked (Invoked i)) :: numbered (S i) bs'
  end.

(** The chain whose predicates have the values [b0 :: bs], with a default
    branch when [has_default]. *)
Definition instrumented {Args : Type} (b0 : bool) (bs : list bool)
    (has_default : bool) : branch_chain (list event) Args event :=
  {| if_branch := (probe 0 b0, marked (Invoked 0));
     else_if_branches := numbered 1 bs;
     else_branch := if has_default then Some (marked InvokedDefault) else None |}.

(** Index of the first [true]. *)
Fixpoint first_true (bs : list bool) : option nat :=
  match bs with
  | [] => None
  | b :: bs' => if b then Some O else option_map S (first_true bs')
  end.

(** ** [for_args] *)

Section ForArgs.

Context {W X R : Type}.

(** [for_args(f, xs...)]: the braced list [{(f(xs), 0)...}] evaluates
    its elements from left to right; the comma operator drops what [f]
    returns, and the list itself is cast to [void]. *)
Fixpoint for_args (f : X -> Eff W R) (xs : list X) : Eff W unit :=
  match xs with
  | [] => ret tt
  | x :: xs' => r <- f x ;; for_args f xs'
  end.

(** A callable that records the argument of each call. *)
Definition recording (x : X) : Eff (list X) unit :=
  fun w => Returned tt (w ++ [x]).

End ForArgs.

(** ** Uses of the combinators in the examples *)

(** *** Chains of arbitrary shape *)

Section Shapes.

Context {W Args R : Type}.

(** The branch of the first [then] among the operations. *)
Fixpoint first_then (ops : list (extension W Args R))
    : option (branch W Args R) :=
  match ops with
  | [] => None
  | op_then f :: _ => Some f
  | _ :: ops' => first_then ops'
  end.

End Shapes.

(** *** [consume] *)

(** What [consume] does to the world: member calls and printed lines
    (["eating solid"], ["drinking liquid"], ["cannot consume"]). *)
Inductive consumption (T : Type) : Type :=
| called_eat (y : T)
| called_drink (y : T)
| eating_solid
| drinking_liquid
| cannot_consume.

Arguments called_eat {T} y.
Arguments called_drink {T} y.
Arguments eating_solid {T}.
Arguments drinking_liquid {T}.
Arguments cannot_consume {T}.

Definition emit {E : Type} (e : E) : Eff (list E) unit :=
  fun w => Returned tt (w ++ [e]).

(** A member call [y.m()]: ill-formed when the class of [y] declares no
    such member. *)
Definition member_call {E : Type} (declared : bool) (e : E)
    : Eff (list E) unit :=
  if declared then emit e else reject.

Section Consume.

(** A class of food; an argument of [consume] is represented by its
    class. *)
Context {T : Type}.

(** The variable templates [is_solid<T>] and [is_liquid<T>], and which
    classes declare [eat()] and [drink()]. *)
Variables (is_solid is_liquid has_eat has_drink : T -> bool).

(** [consume(x)]. *)
Definition consume (x : T) : Eff (list (consumption T)) unit :=
  c <- static_if (bool_v (is_solid x)) ;;
  c' <- else_if
          (then_ c
             (fun y => u <- member_call (has_eat y) (called_eat y) ;;
                       emit eating_solid))
          (bool_v (is_liquid x)) ;;
  r <- call
         (else_
            (then_ c'
               (fun y => u <- member_call (has_drink y) (called_drink y) ;;
                         emit drinking_liquid))
            (fun _ => emit cannot_consume))
         x ;;
  ret tt.

End Consume.

(** The classes of the example; [other] stands for [int] and [float]. *)
Inductive food : Type :=
| banana
| peanuts
| water
| juice
| other.

Definition food_is_solid (t : food) : bool :=
  match t with
  | banana | peanuts => true
  | _ => false
  end.

Definition food_is_liquid (t : food) : bool :=
  match t with
  | water | juice => true
  | _ => false
  end.

(** [banana] and [peanuts] declare [eat()]; [water] and [juice] declare
    [drink()]. *)
Definition food_has_eat (t : food) : bool :=
  match t with
  | banana | peanuts => true
  | _ => false
  end.

Definition food_has_drink (t : food) : bool :=
  match t with
  | water | juice => true
  | _ => false
  end.

(** *** Object storage by size *)

Section Storage.

Context {W T R : Type}.

(** [sizeof(unwrapped)] for each wrapped type, and the two initializers. *)
Variable sizeof : T -> N.
Variables (init_small_object_storage init_big_object_storage : T -> Eff W R).


End Storage.

(** *** A loop that only has effects *)

(** The body of [test0]: it does something with [x] and continues with
    the accumulator it was given ([return state.continue_();]). *)
Definition effect_body {W X Acc R : Type} {HA : Accumulator Acc}
    (g : X -> Eff W R) : loop_body W X Acc :=
  fun state x => r <- g x ;; ret (continue_0 state).

(** *** The factorial of the adapter's example *)

(** [factorial_impl]: [if(x == 0) return 1; return self(x * self(x - 1));]. *)
Definition factorial_impl {W : Type} (self : Z -> Eff W Z) (x : Z) : Eff W Z :=
  if (x =? 0)%Z then ret 1%Z
  else r <- self (x - 1)%Z ;; self (x * r)%Z.

(** *** [print_even_and_accumulate] *)

(** The conversion of an [int] to [std::size_t]. *)
Definition to_size_t (z : Z) : N := Z.to_N (z mod 2 ^ 64).

(** The loop body of [example0]; its output is the pairs (iteration,
    number) it prints.  [x == -999] and [x % 2] are computed in
    [std::size_t], as is the new accumulator. *)
Definition print_even_and_accumulate : loop_body (list (N * N)) N N :=
  fun state x =>
    let must_break := (x =? to_size_t (-999))%N in
    let even := (x mod 2 =? 0)%N in
    c <- static_if (bool_v must_break) ;;
    r <- call
           (else_
              (then_ c (fun _ : unit => ret (break_0 state)))
              (fun _ : unit =>
                 c2 <- static_if (bool_v even) ;;
                 u <- call
                        (then_ c2 (fun _ : unit => emit (iteration state, x)))
                        tt ;;
                 ret (continue_ state (sz_v (accumulator state + x)))))
           tt ;;
    value_of r.

(** The values of [int], taken to be 32 bits wide. *)
Definition is_int (z : Z) : bool :=
  ((- 2 ^ 31 <=? z) && (z <? 2 ^ 31))%Z.

(** [int] arithmetic: a result that is not an [int] is undefined. *)
Definition int_add (a b : Z) : option Z :=
  if is_int (a + b)%Z then Some (a + b)%Z else None.

(** The [for] loop of [print_even_and_accumulate_runtime], over the rest
    of the vector; [%] is the remainder of the truncating division. *)
Fixpoint runtime_loop (xs : list Z) (iteration accumulator : Z)
    (out : list (Z * Z)) : option (Z * list (Z * Z)) :=
  match xs with
  | [] => Some (accumulator, out)
  | x :: xs' =>
      if (x =? -999)%Z then Some (accumulator, out)
      else
        let out' :=
          if (Z.rem x 2 =? 0)%Z then out ++ [(iteration, x)] else out in
        match int_add accumulator x, int_add iteration 1 with
        | Some accumulator', Some iteration' =>
            runtime_loop xs' iteration' accumulator' out'
        | _, _ => None
        end
  end.

(** [print_even_and_accumulate_runtime(accumulator)(xs...)]. *)
Definition print_even_and_accumulate_runtime (accumulator : Z) (xs : list Z)
    : option (Z * list (Z * Z)) :=
  runtime_loop xs 0 accumulator [].

(** How an output line of the run-time loop reads in [std::size_t]. *)
Definition line_to_size_t (l : Z * Z) : N * N :=
  (to_size_t (fst l), to_size_t (snd l)).

(** *** Advancing a state several times *)

(** [advance_state] for each (accumulator, action) in turn. *)
Definition advance_all {Acc : Type} {HA : Accumulator Acc} (s : state Acc)
    (steps : list (Acc * action)) : state Acc :=
  fold_left (fun s' p => advance_state s' (fst p) (snd p)) steps s.

(** * Properties *)

(** Unfolds the plumbing of computations down to a [match] on outcomes. *)
Ltac run_eff :=
  repeat progress
    (unfold bind, ret, reject, diverge, static_if, bool_v,
       make_static_if_result in *;
     simpl in *).

(** The same, on the goal only. *)
Ltac run_goal :=
  repeat progress
    (unfold bind, ret, reject, diverge, static_if, bool_v,
       make_static_if_result;
     simpl).

(** ** Branch chains *)

Section StaticIfFacts.

Context {W Args R : Type}.

Implicit Types (c : chain W Args R) (f g : branch W Args R)
  (p : predicate W) (d : option (branch W Args R)).

Lemma else_ifs_resolved f (bs : list (predicate W * branch W Args R)) w :
  else_ifs (static_if_result f) bs w = Returned (static_if_result f) w.
Proof.
  induction bs as [|[p g] bs IH]; simpl; [reflexivity|].
  run_eff. exact IH.
Qed.

Lemma finish_resolved f d :
  finish d (static_if_result f) = static_if_result f.
Proof. destruct d; reflexivity. Qed.

Lemma tail_resolved f bs d args w :
  (c' <- else_ifs (static_if_result f) bs ;; call (finish d c') args) w
  = (r <- f args ;; ret (result r)) w.
Proof.
  unfold bind at 1. rewrite else_ifs_resolved, finish_resolved. reflexivity.
Qed.

Lemma tail_open bs d args w :
  (c' <- else_ifs (static_if_impl false) bs ;; call (finish d c') args) w
  = first_match bs d args w.
Proof.
  revert w. induction bs as [|[p g] bs IH]; intro w.
  - destruct d; reflexivity.
  - pose proof (tail_resolved g bs d args) as Hres.
    run_eff. destruct (p w) as [[|] w'| |]; run_eff; auto.
Qed.

Lemma realize_first_match (bc : branch_chain W Args R) args w :
  realize bc args w
  = first_match (if_branch bc :: else_if_branches bc) (else_branch bc) args w.
Proof.
  destruct bc as [[p0 f0] bs d]. unfold realize, build.
  pose proof (tail_resolved f0 bs d args) as Hres.
  pose proof (tail_open bs d args) as Hopen.
  run_eff. destruct (p0 w) as [[|] w'| |]; run_eff; auto.
  - specialize (Hres w').
    destruct (else_ifs (static_if_result f0) bs w'); exact Hres.
  - specialize (Hopen w').
    destruct (else_ifs (static_if_impl false) bs w'); exact Hopen.
Qed.

End StaticIfFacts.

(** What the instrumented chain records, from predicate number [i] on. *)
Lemma first_match_numbered (Args : Type) (bs : list bool) (has_default : bool)
    (args : Args) :
  forall i w,
    first_match (numbered i bs)
      (if has_default then Some (marked InvokedDefault) else None) args w
    = match first_true bs with
      | Some k =>
          Returned (result (Invoked (i + k)))
            (w ++ map Evaluated (seq i (S k)) ++ [Invoked (i + k)])
      | None =>
          Returned (if has_default then result InvokedDefault else no_result)
            (w ++ map Evaluated (seq i (length bs))
               ++ (if has_default then [InvokedDefault] else []))
      end.
Proof.
  induction bs as [|b bs IH]; intros i w.
  - destruct has_default; simpl; unfold marked; run_eff;
      rewrite ?app_nil_r; reflexivity.
  - simpl. unfold probe at 1. run_eff. destruct b.
    + unfold marked. rewrite Nat.add_0_r, <- app_assoc. reflexivity.
    + rewrite IH. destruct (first_true bs) as [k|]; simpl.
      * rewrite <- app_assoc, Nat.add_succ_r. reflexivity.
      * rewrite <- app_assoc. reflexivity.
Qed.

(** C1. Whatever the branches and predicates do, the whole chain
    expression behaves as first-match-wins selection: the predicates are
    read in declaration order up to the first true one and only its branch
    is called.  On the instrumented chain, the record of a realization is
    the predicates [0..k] followed by the single call of branch [k], where
    [k] is the first true predicate; no later predicate is read and no
    other branch is called.  When no predicate is true all predicates are
    read and only the default branch, if any, is called. *)
Theorem static_if_first_match_wins :
  (forall (W Args R : Type) (bc : branch_chain W Args R) (args : Args) (w : W),
      realize bc args w
      = first_match (if_branch bc :: else_if_branches bc) (else_branch bc)
          args w)
  /\
  (forall (Args : Type) (b0 : bool) (bs : list bool) (has_default : bool)
          (args : Args),
      realize (instrumented b0 bs has_default) args []
      = match first_true (b0 :: bs) with
        | Some k =>
            Returned (result (Invoked k))
              (map Evaluated (seq 0 (S k)) ++ [Invoked k])
        | None =>
            Returned (if has_default then result InvokedDefault else no_result)
              (map Evaluated (seq 0 (S (length bs)))
                 ++ (if has_default then [InvokedDefault] else []))
        end).
Proof.
  split.
  - intros. apply realize_first_match.
  - intros Args b0 bs has_default args.
    rewrite realize_first_match.
    change (if_branch (instrumented b0 bs has_default)
              :: else_if_branches (instrumented b0 bs has_default))
      with (numbered (Args := Args) 0 (b0 :: bs)).
    change (else_branch (instrumented (Args := Args) b0 bs has_default))
      with (if has_default
            then Some (marked (Args := Args) InvokedDefault) else None).
    rewrite first_match_numbered. reflexivity.
Qed.

Section ResolvedChains.

Context {W Args R : Type}.

Lemma extend_all_resolved (f : branch W Args R) (ops : list (extension W Args R)) w :
  extend_all (static_if_result f) ops w = Returned (static_if_result f) w.
Proof.
  induction ops as [|op ops IH]; [reflexivity|].
  destruct op; run_eff; exact IH.
Qed.

End ResolvedChains.

(** C5. A chain none of whose predicates is true and that has no [else_]
    branch: the terminal call takes any arguments, yields no value and
    leaves the world as it was, whatever the branches of the chain would
    do.  The first part is the call operator of [static_if_impl<false>]
    itself. *)
Theorem unmatched_chain_without_default :
  forall (W Args R : Type) (f0 : branch W Args R) (fs : list (branch W Args R))
         (args : Args) (w : W),
    call (static_if_impl false) args w = Returned (@no_result R) w
    /\ realize {| if_branch := (bool_v false, f0);
                  else_if_branches := map (pair (bool_v false)) fs;
                  else_branch := None |} args w
       = Returned no_result w.
Proof.
  intros W Args R f0 fs args w. split; [reflexivity|].
  rewrite realize_first_match. simpl.
  change ((b <- bool_v false ;;
           (if b then r <- f0 args ;; ret (result r)
            else first_match (map (pair (bool_v false)) fs) None args)) w)
    with (first_match (map (pair (bool_v false)) fs) None args w).
  induction fs as [|f fs IH]; [reflexivity|exact IH].
Qed.

(** C6. On a resolved chain [then], [else_if] and [else_] return the chain
    itself; [else_if] does not read its predicate.  So does any sequence
    of them, and the terminal call after it still runs the branch selected
    first.  In particular an [else_if] written after an [else_] and a
    second [else_] change nothing, on any chain. *)
Theorem resolved_chain_ignores_extensions :
  forall (W Args R : Type) (f : branch W Args R),
    (forall g, then_ (static_if_result f) g = static_if_result f)
    /\ (forall p w,
          else_if (static_if_result f) p w = Returned (static_if_result f) w)
    /\ (forall g, else_ (static_if_result f) g = static_if_result f)
    /\ (forall ops w,
          extend_all (static_if_result f) ops w
          = Returned (static_if_result f) w)
    /\ (forall ops args w,
          (c <- extend_all (static_if_result f) ops ;; call c args) w
          = (r <- f args ;; ret (result r)) w)
    /\ (forall (c : chain W Args R) p w,
          else_if (else_ c f) p w = Returned (else_ c f) w)
    /\ (forall (c : chain W Args R) g, else_ (else_ c f) g = else_ c f).
Proof.
  intros W Args R f. repeat split; try reflexivity.
  - intros ops w. apply extend_all_resolved.
  - intros ops args w. unfold bind at 1.
    rewrite extend_all_resolved. reflexivity.
  - intros [[|]|h] p w; reflexivity.
  - intros [[|]|h] g; reflexivity.
Qed.

(** ** The loop engine *)

(** A two-way [static_if(b).then(h1).else_(h2)(x)] whose value is used. *)
Lemma static_if_then_else {W Args R : Type} (b : bool)
    (h1 h2 : branch W Args R) (x : Args) (w : W) :
  (c <- static_if (bool_v b) ;;
   r <- call (else_ (then_ c h1) h2) x ;;
   value_of r) w
  = (if b then h1 x else h2 x) w.
Proof.
  destruct b; run_goal.
  - destruct (h1 x w); reflexivity.
  - destruct (h2 x w); reflexivity.
Qed.

Section LoopFacts.

Context {W X Acc : Type} {HA : Accumulator Acc}.

Implicit Types (body : loop_body W X Acc) (st : state Acc) (xs : list X).

Lemma step_cons body self st x xs w :
  step body self (st, x :: xs) w
  = match body st x w with
    | Returned s' w' =>
        if is_a_break (next_action s') || Nat.eqb (length xs) 0
        then Returned (accumulator s') w'
        else self (s', xs) w'
    | Diverged => Diverged
    | Rejected => Rejected
    end.
Proof.
  unfold step. unfold bind at 1.
  destruct (body st x w) as [s' w'| |]; try reflexivity.
  rewrite static_if_then_else.
  destruct (is_a_break (next_action s') || Nat.eqb (length xs) 0); reflexivity.
Qed.

(** The recursion through the adapter, on a pack that is not empty,
    computes the fold; a budget of one call per element is enough. *)
Lemma y_step_fold body xs :
  forall x st k w,
    y_combinator (S (length xs) + k) (step body) (st, x :: xs) w
    = (s <- fold_until_break body st (x :: xs) ;; ret (accumulator s)) w.
Proof.
  induction xs as [|y ys IH]; intros x st k w;
    change (y_combinator (S (length ?l) + k) (step body) (st, x :: ?l) w)
      with (step body (y_combinator (length l + k) (step body)) (st, x :: l) w);
    rewrite step_cons; simpl fold_until_break; unfold bind at 1 2.
  - destruct (body st x w) as [s' w'| |]; try reflexivity.
    rewrite orb_true_r. destruct (is_a_break (next_action s')); reflexivity.
  - destruct (body st x w) as [s' w'| |]; try reflexivity.
    simpl length. simpl Nat.eqb. rewrite orb_false_r.
    destruct (is_a_break (next_action s')); [reflexivity|].
    exact (IH y s' k w').
Qed.

Lemma static_for_nil body (init : Acc) k w :
  static_for k body init [] w = Returned init w.
Proof. reflexivity. Qed.

Lemma static_for_fold body (init : Acc) x xs k w :
  static_for (length (x :: xs) + k) body init (x :: xs) w
  = (s <- fold_until_break body (initial_state init) (x :: xs) ;;
     ret (accumulator s)) w.
Proof.
  unfold static_for. rewrite static_if_then_else.
  exact (y_step_fold body xs x (initial_state init) k w).
Qed.

End LoopFacts.

Lemma not_break_continue (a : action) :
  is_a_break a = false -> a = a_continue.
Proof. destruct a; [reflexivity|discriminate]. Qed.


Section PureLoopFacts.

Context {X Acc : Type} {HA : Accumulator Acc}.

Variable b : state Acc -> X -> state Acc.

Implicit Types (s : state Acc) (xs : list X).

(** The states of the fold that stops at a break are those of the left
    fold over the visited elements. *)
Lemma fold_pure (W : Type) xs :
  forall s (w : W),
    fold_until_break (pure_body b) s xs w
    = Returned (fold_left b (firstn (visited b s xs) xs) s) w.
Proof.
  induction xs as [|x xs IH]; intros s w; [reflexivity|].
  simpl. unfold bind, pure_body, ret at 1.
  destruct (is_a_break (next_action (b s x))); [reflexivity|apply IH].
Qed.

Lemma fold_traced xs :
  forall s l,
    fold_until_break (traced b) s xs l
    = Returned (fold_left b (firstn (visited b s xs) xs) s)
        (l ++ calls_of b s xs).
Proof.
  induction xs as [|x xs IH]; intros s l.
  - simpl. unfold ret. rewrite app_nil_r. reflexivity.
  - simpl. unfold bind, traced at 1.
    destruct (is_a_break (next_action (b s x))).
    + reflexivity.
    + rewrite IH, <- app_assoc. reflexivity.
Qed.

Lemma calls_of_length xs : forall s, length (calls_of b s xs) = visited b s xs.
Proof.
  induction xs as [|x xs IH]; intro s; simpl; [reflexivity|].
  destruct (is_a_break (next_action (b s x))); simpl; auto.
Qed.

Lemma calls_of_elements xs :
  forall s, map snd (calls_of b s xs) = firstn (visited b s xs) xs.
Proof.
  induction xs as [|x xs IH]; intro s; simpl; [reflexivity|].
  destruct (is_a_break (next_action (b s x))); simpl; [reflexivity|].
  f_equal. apply IH.
Qed.

Lemma visited_le xs : forall s, visited b s xs <= length xs.
Proof.
  induction xs as [|x xs IH]; intro s; simpl; [lia|].
  destruct (is_a_break (next_action (b s x))); [lia|].
  specialize (IH (b s x)). lia.
Qed.




(** The state of the [j]-th call is the left fold over the [j] elements
    before it. *)
Lemma calls_of_state xs :
  forall s j s' x,
    nth_error (calls_of b s xs) j = Some (s', x) ->
    s' = fold_left b (firstn j xs) s /\ nth_error xs j = Some x.
Proof.
  induction xs as [|x0 xs IH]; intros s j s' x H.
  - destruct j; discriminate.
  - destruct j as [|j]; simpl in H.
    + injection H as <- <-. split; reflexivity.
    + destruct (is_a_break (next_action (b s x0))).
      * destruct j; discriminate.
      * simpl. apply IH. exact H.
Qed.

(** A call on which the body answers with a break is the last one. *)
Lemma calls_of_break_last xs :
  forall s j s' x,
    nth_error (calls_of b s xs) j = Some (s', x) ->
    next_action (b s' x) = a_break ->
    length (calls_of b s xs) = S j.
Proof.
  induction xs as [|x0 xs IH]; intros s j s' x H Hb.
  - destruct j; discriminate.
  - destruct j as [|j]; simpl in H |- *.
    + injection H as <- <-. rewrite Hb. reflexivity.
    + destruct (is_a_break (next_action (b s x0))).
      * destruct j; discriminate.
      * simpl. f_equal. eapply IH; eassumption.
Qed.

(** After a call on which the body does not break, the next element, if
    there is one, is visited. *)
Lemma calls_of_continue_next xs :
  forall s j s' x,
    nth_error (calls_of b s xs) j = Some (s', x) ->
    next_action (b s' x) = a_continue ->
    S j < length xs ->
    S j < length (calls_of b s xs).
Proof.
  induction xs as [|x0 xs IH]; intros s j s' x H Hc Hlt.
  - destruct j; discriminate.
  - destruct j as [|j]; simpl in H, Hlt |- *.
    + injection H as <- <-. rewrite Hc. simpl.
      destruct xs; simpl in *; lia.
    + destruct (is_a_break (next_action (b s x0))).
      * destruct j; discriminate.
      * simpl. apply -> Nat.succ_lt_mono. eapply IH; try eassumption. lia.
Qed.

(** Every state handed to the body asks to continue. *)
Lemma calls_of_continue xs :
  forall s,
    next_action s = a_continue ->
    Forall (fun c => next_action (fst c) = a_continue) (calls_of b s xs).
Proof.
  induction xs as [|x xs IH]; intros s Hs; simpl; constructor; [exact Hs|].
  destruct (is_a_break (next_action (b s x))) eqn:E; [constructor|].
  apply IH. now apply not_break_continue.
Qed.

Lemma sz_v_succ (i : N) : sz_v (sz_v i + 1) = sz_v (i + 1).
Proof. unfold sz_v. apply N.Div0.add_mod_idemp_l. Qed.

(** When the body advances the state it was given, the state of the
    [j]-th call has seen [j] increments of the counter. *)
Lemma calls_of_iteration xs :
  advances b ->
  forall s i j s' x,
    iteration s = sz_v i ->
    nth_error (calls_of b s xs) j = Some (s', x) ->
    iteration s' = sz_v (i + N.of_nat j).
Proof.
  intro Hadv. induction xs as [|x0 xs IH]; intros s i j s' x Hs H.
  - destruct j; discriminate.
  - destruct j as [|j]; simpl in H.
    + injection H as <- <-. rewrite N.add_0_r. exact Hs.
    + destruct (is_a_break (next_action (b s x0))).
      * destruct j; discriminate.
      * replace (i + N.of_nat (S j))%N with ((i + 1) + N.of_nat j)%N by lia.
        apply (IH (b s x0) (i + 1)%N j s' x); [|exact H].
        destruct (Hadv s x0) as [a [-> | ->]]; simpl;
          rewrite Hs; apply sz_v_succ.
Qed.

End PureLoopFacts.

(** ** The loop state *)

(** C4, for compile-time accumulators.  [continue_] and [break_] make
    the state of the counter [s.iteration() + 1], a [std::size_t] sum, of
    the type of the new accumulator and of the action they are named
    after; the overloads without a parameter pass [accumulator()].  The
    new state reads its accumulator back as the value-initialised object
    of that type: it is the accumulator passed when that is a compile-time
    constant.  They are functions of [s] and [a]: nothing is modified and
    every state has an answer. *)
Theorem state_operations :
  forall (Acc : Type) (HA : Accumulator Acc) (s : state Acc) (a : Acc),
    (iteration (continue_ s a) = ((iteration s + 1) mod 2 ^ 64)%N
     /\ accumulator (continue_ s a) = value_init a
     /\ next_action (continue_ s a) = a_continue)
    /\ (iteration (break_ s a) = ((iteration s + 1) mod 2 ^ 64)%N
        /\ accumulator (break_ s a) = value_init a
        /\ next_action (break_ s a) = a_break)
    /\ continue_0 s = continue_ s (accumulator s)
    /\ break_0 s = break_ s (accumulator s)
    /\ (value_init a = a ->
        continue_ s a
        = state_of ((iteration s + 1) mod 2 ^ 64)%N a a_continue
        /\ break_ s a
           = state_of ((iteration s + 1) mod 2 ^ 64)%N a a_break)
    /\ ((iteration s + 1 < 2 ^ 64)%N ->
        iteration (continue_ s a) = (iteration s + 1)%N
        /\ iteration (break_ s a) = (iteration s + 1)%N
        /\ iteration (continue_0 s) = (iteration s + 1)%N
        /\ iteration (break_0 s) = (iteration s + 1)%N).
Proof.
  intros Acc HA s a.
  split; [repeat split|]. split; [repeat split|].
  split; [reflexivity|]. split; [reflexivity|]. split.
  - intro Ha. unfold continue_, break_, advance_state, make_state.
    rewrite Ha. split; reflexivity.
  - intro Hlt. repeat split; simpl; unfold sz_v, size_t_bits;
      now apply N.mod_small.
Qed.

Lemma state_operations_witness :
  continue_ (initial_state 0%Z) 5%Z
  = state_of ((iteration (initial_state 0%Z) + 1) mod 2 ^ 64)%N 5%Z a_continue
  /\ break_ (initial_state 0%Z) 5%Z
     = state_of ((iteration (initial_state 0%Z) + 1) mod 2 ^ 64)%N 5%Z a_break.
Proof.
  exact (proj1 (proj2 (proj2 (proj2 (proj2
           (state_operations Z (compile_time_constants Z)
              (initial_state 0%Z) 5%Z))))) eq_refl).
Defined.

(** C4 does not hold of a run-time accumulator: [continue_(7)] on a state
    whose accumulator is an [int] makes a state whose accumulator reads
    back as [int{}]. *)
Lemma run_time_accumulator_is_dropped :
  accumulator (continue_ (HA := run_time_int) (initial_state 42%Z) 7%Z) = 0%Z
  /\ accumulator (break_ (HA := run_time_int) (initial_state 42%Z) 7%Z) = 0%Z
  /\ 0%Z <> 7%Z.
Proof.
  split; [reflexivity|]. split; [reflexivity|discriminate].
Qed.

(** ** The adapter *)

Section YCombinatorFacts.

Context {W Args R : Type}.

Variable f : (Args -> Eff W R) -> Args -> Eff W R.

Lemma below_refl {A : Type} (o : outcome W A) : below o o.
Proof. right. reflexivity. Qed.

Lemma y_combinator_grows :
  monotone f ->
  forall n, approximates (y_combinator n f) (y_combinator (S n) f).
Proof.
  intros Hf n. induction n as [|n IH].
  - intros xs w. left. reflexivity.
  - apply (Hf _ _ IH).
Qed.

Lemma y_combinator_stable :
  monotone f ->
  forall n m xs w r w',
    n <= m ->
    y_combinator n f xs w = Returned r w' ->
    y_combinator m f xs w = Returned r w'.
Proof.
  intros Hf n m xs w r w' Hle H. induction Hle as [|m Hle IH]; [exact H|].
  destruct (y_combinator_grows Hf m xs w) as [E|E]; congruence.
Qed.

End YCombinatorFacts.

(** C7. The adapter [g = y_combinator(f)] called with [xs...] calls [f]
    with itself and [xs...]: that is its unfolding, a call [g(xs...)]
    returns a value exactly when [f(g, xs...)] does, and for an [f] that
    only calls its first parameter the value of [g(xs...)], once
    returned, is the value of [f(g, xs...)] under every larger budget. *)
Theorem y_combinator_passes_itself :
  forall (W Args R : Type) (f : (Args -> Eff W R) -> Args -> Eff W R),
    (forall n xs, y_combinator (S n) f xs = f (y_combinator n f) xs)
    /\ (forall xs w r w',
          (exists n, y_combinator n f xs w = Returned r w')
          <-> (exists n, f (y_combinator n f) xs w = Returned r w'))
    /\ (monotone f ->
        forall n m xs w r w',
          n <= m ->
          y_combinator n f xs w = Returned r w' ->
          y_combinator m f xs w = Returned r w'
          /\ f (y_combinator m f) xs w = Returned r w').
Proof.
  intros W Args R f. split; [reflexivity|]. split.
  - intros xs w r w'. split; intros [n H].
    + destruct n as [|n]; [discriminate|]. exists n. exact H.
    + exists (S n). exact H.
  - intros Hf n m xs w r w' Hle H. split.
    + apply (y_combinator_stable f Hf n m); assumption.
    + change (y_combinator (S m) f xs w = Returned r w').
      apply (y_combinator_stable f Hf n (S m)); [lia|assumption].
Qed.

(** The [step] lambda only calls [self]. *)
Lemma step_monotone {W X Acc : Type} {HA : Accumulator Acc}
    (body : loop_body W X Acc) :
  monotone (step body).
Proof.
  intros g g' Hg [st [|x xs]] w.
  - apply below_refl.
  - rewrite !step_cons. destruct (body st x w) as [s' w'| |];
      try apply below_refl.
    destruct (is_a_break (next_action s') || Nat.eqb (length xs) 0);
      [apply below_refl|apply Hg].
Qed.

(** ** The loop: results *)

(** The loop over a traced body: its value and the calls it made. *)
Lemma static_for_traced {X Acc : Type} {HA : Accumulator Acc}
    (b : state Acc -> X -> state Acc) (init : Acc) (xs : list X) (k : nat) :
  static_for (length xs + k) (traced b) init xs []
  = Returned (loop_result b init xs) (calls_of b (initial_state init) xs).
Proof.
  destruct xs as [|x xs]; [reflexivity|].
  rewrite static_for_fold. unfold bind. rewrite fold_traced. reflexivity.
Qed.

Lemma static_for_pure {W X Acc : Type} {HA : Accumulator Acc}
    (b : state Acc -> X -> state Acc) (init : Acc) (xs : list X) (k : nat)
    (w : W) :
  static_for (length xs + k) (pure_body b) init xs w
  = Returned (loop_result b init xs) w.
Proof.
  destruct xs as [|x xs]; [reflexivity|].
  rewrite static_for_fold. unfold bind. rewrite fold_pure. reflexivity.
Qed.





(** C3. The elements the body is called with are an initial segment of
    the sequence, in its order and each once, the [j]-th one with the
    state of the left fold over the [j] elements before it; a call on which the body
    answers with a break is the last call; a call on which it does not is
    followed by a call on the next element, if there is one.  Adding
    unless the sentinel is seen, over [5, -999, 15], returns [5] after two
    calls, on [5] and on [-999]. *)
Theorem static_for_visits_in_order :
  (forall (X Acc : Type) (HA : Accumulator Acc)
          (b : state Acc -> X -> state Acc) (init : Acc)
          (xs : list X) (k : nat),
      exists r calls,
        static_for (length xs + k) (traced b) init xs [] = Returned r calls
        /\ map snd calls = firstn (length calls) xs
        /\ (forall j s x,
              nth_error calls j = Some (s, x) ->
              s = fold_left b (firstn j xs) (initial_state init)
              /\ nth_error xs j = Some x)
        /\ (forall j s x,
              nth_error calls j = Some (s, x) ->
              next_action (b s x) = a_break ->
              length calls = S j)
        /\ (forall j s x,
              nth_error calls j = Some (s, x) ->
              next_action (b s x) = a_continue ->
              S j < length xs ->
              S j < length calls))
  /\ (exists calls,
         static_for 3 (traced add_unless_sentinel) 0%Z [5; -999; 15]%Z []
         = Returned 5%Z calls
         /\ length calls = 2
         /\ map snd calls = [5; -999]%Z).
Proof.
  split.
  - intros X Acc HA b init xs k.
    exists (loop_result b init xs), (calls_of b (initial_state init) xs).
    split; [apply static_for_traced|].
    split; [rewrite calls_of_length; apply calls_of_elements|].
    split; [apply calls_of_state|].
    split; [apply calls_of_break_last|apply calls_of_continue_next].
  - eexists. split; [reflexivity|]. split; reflexivity.
Qed.

(** C8. A body without effects: the loop returns, and the accumulator it
    returns depends on the initial accumulator and the elements only, not
    on the world it runs in nor on the budget beyond one call per
    element; the world is left as it was. *)
Theorem static_for_deterministic :
  forall (X Acc W1 W2 : Type) (HA : Accumulator Acc)
         (b : state Acc -> X -> state Acc) (init : Acc)
         (xs : list X) (k1 k2 : nat) (w1 : W1) (w2 : W2),
    exists r,
      static_for (length xs + k1) (pure_body b) init xs w1 = Returned r w1
      /\ static_for (length xs + k2) (pure_body b) init xs w2 = Returned r w2.
Proof.
  intros. eexists. split; apply static_for_pure.
Qed.

(** C9. Every state the body is called with has the action continue: the
    first one is made so, and a later one is a state the body returned
    and on which the loop went on. *)
Theorem body_never_sees_break :
  forall (X Acc : Type) (HA : Accumulator Acc)
         (b : state Acc -> X -> state Acc) (init : Acc)
         (xs : list X) (k : nat),
    exists r calls,
      static_for (length xs + k) (traced b) init xs [] = Returned r calls
      /\ Forall (fun c => next_action (fst c) = a_continue) calls.
Proof.
  intros X Acc HA b init xs k. eexists. eexists.
  split; [apply static_for_traced|].
  apply calls_of_continue. reflexivity.
Qed.

(** C10, for bodies that advance their state once.  When the body makes the state it returns with one
    [continue_] or [break_] from the state it was given, and the number of
    elements is a [std::size_t] value as [sizeof...(xs)] is, the state of
    the [j]-th call (from 0) has iteration [j]. *)
Theorem body_sees_iteration_index :
  forall (X Acc : Type) (HA : Accumulator Acc)
         (b : state Acc -> X -> state Acc) (init : Acc)
         (xs : list X) (k : nat),
    advances b ->
    (N.of_nat (length xs) < 2 ^ size_t_bits)%N ->
    exists r calls,
      static_for (length xs + k) (traced b) init xs [] = Returned r calls
      /\ forall j s x,
           nth_error calls j = Some (s, x) -> iteration s = N.of_nat j.
Proof.
  intros X Acc HA b init xs k Hadv Hsize. eexists. eexists.
  split; [apply static_for_traced|].
  intros j s x H.
  rewrite (calls_of_iteration b xs Hadv (initial_state init) 0 j s x
             eq_refl H).
  assert (j < length xs) as Hj.
  { apply (Nat.lt_le_trans _ (visited b (initial_state init) xs)).
    - rewrite <- calls_of_length. apply nth_error_Some. congruence.
    - apply visited_le. }
  unfold sz_v. apply N.mod_small. lia.
Qed.

Lemma add_unless_sentinel_advances : advances add_unless_sentinel.
Proof.
  intros s x. unfold add_unless_sentinel.
  destruct (x =? -999)%Z.
  - exists (accumulator s). right. reflexivity.
  - exists (accumulator s + x)%Z. left. reflexivity.
Qed.

Lemma body_sees_iteration_index_witness :
  exists r calls,
    static_for 4 (traced add_unless_sentinel) 0%Z [5; 4; 15; 35]%Z []
    = Returned r calls
    /\ forall j s x,
         nth_error calls j = Some (s, x) -> iteration s = N.of_nat j.
Proof.
  apply (body_sees_iteration_index Z Z (compile_time_constants Z)
           add_unless_sentinel 0%Z [5; 4; 15; 35]%Z 0).
  - exact add_unless_sentinel_advances.
  - reflexivity.
Defined.

(** C10 does not hold of every body: one that advances the state twice
    is called on the second element (index 1) with a state of iteration 2. *)
Lemma iteration_index_counterexample :
  exists calls s x,
    static_for 2 (traced continue_twice) 0%Z [1; 2]%Z [] = Returned 0%Z calls
    /\ nth_error calls 1 = Some (s, x)
    /\ iteration s <> N.of_nat 1.
Proof.
  eexists. eexists. eexists.
  split; [reflexivity|]. split; [reflexivity|]. discriminate.
Qed.

(** ** The scenarios of the examples *)

(** [consume(water{})]: the food is not solid but liquid; the second
    predicate is read, [drink] is called once, [eat] and the default
    branch are not. *)
Example consume_liquid :
  realize (instrumented (Args := unit) false [true] true) tt []
  = Returned (result (Invoked 1)) [Evaluated 0; Evaluated 1; Invoked 1].
Proof. reflexivity. Qed.

(** [consume(int{})]: neither solid nor liquid, the default branch runs. *)
Example consume_neither :
  realize (instrumented (Args := unit) false [false] true) tt []
  = Returned (result InvokedDefault)
      [Evaluated 0; Evaluated 1; InvokedDefault].
Proof. reflexivity. Qed.

(** A budget smaller than the number of elements runs out. *)
Example static_for_budget :
  static_for 3 (pure_body add_unless_sentinel) 0%Z [5; 4; 15; 35]%Z tt
  = Diverged.
Proof. reflexivity. Qed.

(** A chain whose true predicate has no [then] has no call operator. *)
Example call_without_then :
  (c <- static_if (bool_v true) ;; call (else_ c (fun _ : unit => ret 0)) tt)
    tt
  = @Rejected unit (call_result nat).
Proof. reflexivity. Qed.

(** * Further properties *)

(** ** [for_args] *)

Lemma for_args_app {W X R : Type} (f : X -> Eff W R) (xs ys : list X) :
  forall w,
    for_args f (xs ++ ys) w = (u <- for_args f xs ;; for_args f ys) w.
Proof.
  induction xs as [|x xs IH]; intro w; [reflexivity|].
  simpl. unfold bind in IH |- *.
  destruct (f x w) as [r w'| |]; try reflexivity. apply IH.
Qed.

Lemma for_args_recording {X : Type} (xs : list X) :
  forall l, for_args recording xs l = Returned tt (l ++ xs).
Proof.
  induction xs as [|x xs IH]; intro l; simpl.
  - unfold ret. rewrite app_nil_r. reflexivity.
  - unfold bind, recording at 1. rewrite IH, <- app_assoc. reflexivity.
Qed.

(** X1. [for_args] calls [f] on every argument, once each and from left
    to right, and returns nothing; over a pack in two parts it is the
    call over the first part followed by the call over the second. *)
Theorem for_args_in_order :
  (forall (X : Type) (xs : list X) (l : list X),
      for_args recording xs l = Returned tt (l ++ xs))
  /\ (forall (W X R : Type) (f : X -> Eff W R) (xs ys : list X) (w : W),
         for_args f (xs ++ ys) w
         = (u <- for_args f xs ;; for_args f ys) w).
Proof.
  split.
  - intros. apply for_args_recording.
  - intros. apply for_args_app.
Qed.

(** ** A loop that only has effects *)

Lemma fold_effect_body {W X Acc R : Type} {HA : Accumulator Acc}
    (g : X -> Eff W R) (xs : list X) :
  forall (s : state Acc) w,
    (s' <- fold_until_break (effect_body g) s xs ;; ret (accumulator s')) w
    = (u <- for_args g xs ;;
       ret (match xs with
            | [] => accumulator s
            | _ :: _ => value_init (accumulator s)
            end)) w.
Proof.
  induction xs as [|x xs IH]; intros s w; [reflexivity|].
  specialize (IH (continue_0 s)).
  cbn [fold_until_break for_args]. unfold effect_body at 1.
  unfold bind in IH |- *. destruct (g x w) as [r w'| |]; try reflexivity.
  cbn [ret next_action continue_0 continue_ advance_state make_state
       is_a_break].
  cbn [ret next_action continue_0 continue_ advance_state make_state
       is_a_break accumulator] in IH.
  rewrite IH. destruct xs as [|y ys]; [reflexivity|].
  rewrite value_init_idem. reflexivity.
Qed.

(** X2. A loop whose body does something with each element and answers
    [state.continue_()] is [for_args] over the elements: the same calls
    in the same order.  What it returns is the initial accumulator on an
    empty pack and the value-initialised object of its type otherwise, the
    initial accumulator again when that is an empty class such as
    [nothing]. *)
Theorem static_for_effect_body :
  forall (W X Acc R : Type) (HA : Accumulator Acc) (g : X -> Eff W R)
         (init : Acc) (xs : list X) (k : nat) (w : W),
    static_for (length xs + k) (effect_body g) init xs w
    = (u <- for_args g xs ;;
       ret (match xs with
            | [] => init
            | _ :: _ => value_init init
            end)) w.
Proof.
  intros W X Acc R HA g init xs k w.
  destruct xs as [|x xs]; [reflexivity|].
  rewrite static_for_fold, fold_effect_body.
  cbn [initial_state make_state accumulator].
  rewrite value_init_idem. reflexivity.
Qed.

(** ** Chains of arbitrary shape *)

Lemma extend_all_true {W Args R : Type} (ops : list (extension W Args R)) :
  forall w,
    extend_all (static_if_impl true) ops w
    = Returned
        (match first_then ops with
         | Some f => static_if_result f
         | None => static_if_impl true
         end) w.
Proof.
  induction ops as [|op ops IH]; intro w; [reflexivity|].
  destruct op as [f|p|f]; simpl.
  - run_goal. apply extend_all_resolved.
  - run_goal. apply IH.
  - run_goal. apply IH.
Qed.

(** X3. After a true predicate, [else_] and [else_if] are skipped, and
    the predicate of an [else_if] is not read, up to the first [then]:
    its branch is the one the call runs, whatever follows.  Without any
    [then] the chain has no call operator. *)
Theorem true_predicate_waits_for_then :
  forall (W Args R : Type) (ops : list (extension W Args R)) (args : Args)
         (w : W),
    extend_all (static_if_impl true) ops w
    = Returned
        (match first_then ops with
         | Some f => static_if_result f
         | None => static_if_impl true
         end) w
    /\ (c <- extend_all (static_if_impl true) ops ;; call c args) w
       = match first_then ops with
         | Some f => (r <- f args ;; ret (result r)) w
         | None => Rejected
         end.
Proof.
  intros. split; [apply extend_all_true|].
  unfold bind at 1. rewrite extend_all_true.
  destruct (first_then ops); reflexivity.
Qed.

(** ** [consume] *)

(** X5. When every solid class declares [eat()] and every liquid class
    that is not solid declares [drink()], [consume] is well-formed for
    every class, also for those that declare neither member: it calls
    the one member its class was selected for and prints that branch's
    line, or prints that the argument cannot be consumed. *)
Theorem consume_calls_only_declared_members :
  forall (T : Type) (is_solid is_liquid has_eat has_drink : T -> bool),
    (forall t, is_solid t = true -> has_eat t = true) ->
    (forall t, is_solid t = false -> is_liquid t = true ->
               has_drink t = true) ->
    forall (x : T) (w : list (consumption T)),
      consume is_solid is_liquid has_eat has_drink x w
      = Returned tt
          (w ++ (if is_solid x then [called_eat x; eating_solid]
                 else if is_liquid x then [called_drink x; drinking_liquid]
                 else [cannot_consume])).
Proof.
  intros T is_solid is_liquid has_eat has_drink Heat Hdrink x w.
  unfold consume. run_goal.
  destruct (is_solid x) eqn:Es; run_goal.
  - unfold member_call. rewrite (Heat x Es). unfold emit.
    rewrite <- app_assoc. reflexivity.
  - destruct (is_liquid x) eqn:El; run_goal.
    + unfold member_call. rewrite (Hdrink x Es El). unfold emit.
      rewrite <- app_assoc. reflexivity.
    + reflexivity.
Qed.

Lemma consume_calls_only_declared_members_witness :
  consume food_is_solid food_is_liquid food_has_eat food_has_drink water []
  = Returned tt
      ([] ++ (if food_is_solid water then [called_eat water; eating_solid]
              else if food_is_liquid water
                   then [called_drink water; drinking_liquid]
                   else [cannot_consume])).
Proof.
  apply (consume_calls_only_declared_members food food_is_solid
           food_is_liquid food_has_eat food_has_drink).
  - intros [] H; try discriminate H; reflexivity.
  - intros [] H1 H2; try discriminate H1; try discriminate H2; reflexivity.
Defined.

(** ** Object storage by size *)



(** ** The factorial of the adapter's example *)

(** X7. The example's [factorial] returns 1 on 0.  On a positive
    argument it never returns: [factorial_impl] calls [self] on
    [x * self(x - 1)], so the call on 1 calls itself on 1 again, and every
    larger argument reaches it. *)
Theorem factorial_example_never_returns :
  forall (W : Type) (n : nat) (w : W),
    y_combinator (S n) factorial_impl 0%Z w = Returned 1%Z w
    /\ forall p : positive,
         y_combinator n factorial_impl (Z.pos p) w = Diverged.
Proof.
  intros W n w. split; [reflexivity|].
  revert w. induction n as [|n IH]; intros w p; [reflexivity|].
  change (y_combinator (S n) factorial_impl (Z.pos p) w)
    with ((r <- y_combinator n factorial_impl (Z.pos p - 1)%Z ;;
           y_combinator n factorial_impl (Z.pos p * r)%Z) w).
  unfold bind.
  destruct (Pos.eq_dec p 1) as [->|Hp].
  - change (Z.pos 1 - 1)%Z with 0%Z.
    destruct n as [|n]; [reflexivity|].
    change (y_combinator (S n) factorial_impl 0%Z w) with (Returned 1%Z w).
    apply (IH w 1%positive).
  - replace (Z.pos p - 1)%Z with (Z.pos (Pos.pred p)) by lia.
    rewrite IH. reflexivity.
Qed.

(** ** Advancing a state several times *)

Lemma last_cons {A : Type} (steps : list A) :
  forall q p, last (q :: steps) p = last steps q.
Proof.
  induction steps as [|r steps IH]; intros q p; [reflexivity|].
  change (last (q :: r :: steps) p) with (last (r :: steps) p).
  rewrite !IH. reflexivity.
Qed.

(** X9. After one or more [continue_]/[break_] calls in a row the
    iteration has advanced by their number, in [std::size_t], and the
    accumulator type and the action are those of the last call: the state
    is the one [make_state] makes from the last call's arguments, its
    accumulator reads back value-initialised, and an earlier break is
    forgotten. *)
Theorem advance_all_counts :
  forall (Acc : Type) (HA : Accumulator Acc) (s : state Acc)
         (p : Acc * action) (steps : list (Acc * action)),
    advance_all s (p :: steps)
    = state_of
        (sz_v (iteration s + N.of_nat (length (p :: steps))))
        (value_init (fst (last steps p)))
        (snd (last steps p)).
Proof.
  intros Acc HA s p steps. revert s p.
  induction steps as [|q steps IH]; intros s p.
  - reflexivity.
  - change (advance_all s (p :: q :: steps))
      with (advance_all (advance_state s (fst p) (snd p)) (q :: steps)).
    rewrite IH. f_equal.
    + unfold advance_state, make_state. simpl iteration.
      unfold sz_v. rewrite N.Div0.add_mod_idemp_l. f_equal.
      change (length (p :: q :: steps)) with (S (length (q :: steps))). lia.
    + rewrite (last_cons steps q p). reflexivity.
    + rewrite (last_cons steps q p). reflexivity.
Qed.

(** ** The depth of the recursion *)

Lemma y_step_depth {W X Acc : Type} {HA : Accumulator Acc}
    (b : state Acc -> X -> state Acc) (xs : list X) :
  forall n x s (w : W),
    y_combinator n (step (pure_body b)) (s, x :: xs) w
    = if visited b s (x :: xs) <=? n
      then Returned
             (accumulator
                (fold_left b (firstn (visited b s (x :: xs)) (x :: xs)) s))
             w
      else Diverged.
Proof.
  induction xs as [|y ys IH]; intros n x s w.
  - destruct n as [|n].
    + reflexivity.
    + change (y_combinator (S n) (step (pure_body b)) (s, [x]) w)
        with (step (pure_body b) (y_combinator n (step (pure_body b)))
                (s, [x]) w).
      rewrite step_cons. unfold pure_body, ret. rewrite orb_true_r.
      simpl. destruct (is_a_break (next_action (b s x))); reflexivity.
  - destruct n as [|n].
    + reflexivity.
    + change (y_combinator (S n) (step (pure_body b)) (s, x :: y :: ys) w)
        with (step (pure_body b) (y_combinator n (step (pure_body b)))
                (s, x :: y :: ys) w).
      rewrite step_cons. unfold pure_body at 1, ret.
      change (Nat.eqb (length (y :: ys)) 0) with false.
      rewrite orb_false_r.
      cbn [visited firstn fold_left].
      destruct (is_a_break (next_action (b s x))) eqn:E.
      * reflexivity.
      * rewrite IH.
        change (S (visited b (b s x) (y :: ys)) <=? S n)
          with (visited b (b s x) (y :: ys) <=? n).
        reflexivity.
Qed.

(** X10. The calls through the adapter nest once per visited element:
    the loop returns when that many nested calls are allowed, and does
    not with fewer.  What it returns then is the initial accumulator on
    an empty pack and the accumulator of the state it stops in
    otherwise. *)
Theorem static_for_depth :
  forall (W X Acc : Type) (HA : Accumulator Acc)
         (b : state Acc -> X -> state Acc) (init : Acc)
         (xs : list X) (n : nat) (w : W),
    static_for n (pure_body b) init xs w
    = if visited b (initial_state init) xs <=? n
      then Returned
             (match xs with
              | [] => init
              | _ :: _ =>
                  accumulator
                    (fold_left b
                       (firstn (visited b (initial_state init) xs) xs)
                       (initial_state init))
              end)
             w
      else Diverged.
Proof.
  intros W X Acc HA b init xs n w.
  unfold static_for. rewrite static_if_then_else.
  destruct xs as [|x xs]; [reflexivity|].
  exact (y_step_depth b xs n x (initial_state init) w).
Qed.

(** ** The compile-time loop and the run-time loop *)

Lemma to_size_t_add (a b : Z) :
  sz_v (to_size_t a + to_size_t b) = to_size_t (a + b).
Proof.
  unfold sz_v, to_size_t, size_t_bits.
  apply N2Z.inj.
  rewrite N2Z.inj_mod, N2Z.inj_add.
  pose proof (Z.mod_pos_bound a (2 ^ 64) ltac:(lia)) as Ha.
  pose proof (Z.mod_pos_bound b (2 ^ 64) ltac:(lia)) as Hb.
  pose proof (Z.mod_pos_bound (a + b) (2 ^ 64) ltac:(lia)) as Hab.
  rewrite !Z2N.id by lia.
  change (Z.of_N (2 ^ 64)) with (2 ^ 64)%Z.
  symmetry. apply Zplus_mod.
Qed.

Lemma to_size_t_succ (i : Z) :
  sz_v (to_size_t i + 1) = to_size_t (i + 1).
Proof. exact (to_size_t_add i 1). Qed.

Lemma to_size_t_sentinel (x : Z) :
  is_int x = true ->
  (to_size_t x =? to_size_t (-999))%N = (x =? -999)%Z.
Proof.
  unfold is_int. intro H. apply andb_true_iff in H as [Hlo Hhi].
  apply Z.leb_le in Hlo. apply Z.ltb_lt in Hhi.
  assert (to_size_t x
          = Z.to_N (if (x <? 0)%Z then x + 2 ^ 64 else x)%Z) as ->.
  { unfold to_size_t. f_equal. destruct (x <? 0)%Z eqn:E.
    - apply Z.ltb_lt in E. symmetry.
      apply (Z.mod_unique x (2 ^ 64) (-1)); lia.
    - apply Z.ltb_ge in E. apply Z.mod_small. lia. }
  change (to_size_t (-999)) with (Z.to_N (2 ^ 64 - 999)).
  destruct (x <? 0)%Z eqn:E.
  - apply Z.ltb_lt in E.
    destruct (Z.eqb_spec x (-999)) as [->|Hne].
    + apply N.eqb_refl.
    + apply N.eqb_neq. intro Heq. apply Z2N.inj in Heq; lia.
  - apply Z.ltb_ge in E.
    destruct (Z.eqb_spec x (-999)) as [->|Hne]; [lia|].
    apply N.eqb_neq. intro Heq. apply Z2N.inj in Heq; lia.
Qed.

Lemma to_size_t_even (x : Z) :
  (to_size_t x mod 2 =? 0)%N = (Z.rem x 2 =? 0)%Z.
Proof.
  assert (Z.of_N (to_size_t x mod 2) = x mod 2)%Z as Hmod.
  { unfold to_size_t. rewrite N2Z.inj_mod.
    pose proof (Z.mod_pos_bound x (2 ^ 64) ltac:(lia)) as Hx.
    rewrite Z2N.id by lia. change (Z.of_N 2) with 2%Z.
    apply Z.mod_mod_divide. exists (2 ^ 63)%Z. reflexivity. }
  destruct (Z.eqb_spec (Z.rem x 2) 0) as [Hr|Hr].
  - apply N.eqb_eq. apply N2Z.inj. rewrite Hmod.
    apply Z.rem_mod_eq_0 in Hr; [exact Hr|lia].
  - apply N.eqb_neq. intro H. apply Hr.
    apply Z.rem_mod_eq_0; [lia|]. rewrite <- Hmod, H. reflexivity.
Qed.

Lemma print_even_and_accumulate_step (i a x : Z) (l : list (Z * Z)) :
  is_int x = true ->
  print_even_and_accumulate
    (make_state (to_size_t i) (to_size_t a) a_continue) (to_size_t x)
    (map line_to_size_t l)
  = if (x =? -999)%Z
    then Returned
           (make_state (to_size_t (i + 1)) (to_size_t a) a_break)
           (map line_to_size_t l)
    else Returned
           (make_state (to_size_t (i + 1)) (to_size_t (a + x)) a_continue)
           (map line_to_size_t
              (if (Z.rem x 2 =? 0)%Z then l ++ [(i, x)] else l)).
Proof.
  intro Hx. unfold print_even_and_accumulate.
  rewrite (to_size_t_sentinel x Hx), to_size_t_even.
  destruct (x =? -999)%Z.
  - run_goal. unfold break_0, break_, advance_state. simpl.
    rewrite to_size_t_succ. reflexivity.
  - run_goal. unfold continue_, advance_state. simpl.
    rewrite to_size_t_succ, !to_size_t_add.
    destruct (Z.rem x 2 =? 0)%Z; run_goal.
    + unfold emit. rewrite map_app. reflexivity.
    + reflexivity.
Qed.

Lemma runtime_loop_fold (xs : list Z) :
  forallb is_int xs = true ->
  forall i a l r out,
    runtime_loop xs i a l = Some (r, out) ->
    (s <- fold_until_break print_even_and_accumulate
            (make_state (to_size_t i) (to_size_t a) a_continue)
            (map to_size_t xs) ;;
     ret (accumulator s)) (map line_to_size_t l)
    = Returned (to_size_t r) (map line_to_size_t out).
Proof.
  induction xs as [|x xs IH]; intros Hxs i a l r out H.
  - injection H as <- <-. reflexivity.
  - simpl in Hxs. apply andb_true_iff in Hxs as [Hx Hxs].
    specialize (IH Hxs).
    cbn [map fold_until_break]. unfold bind at 1 2.
    rewrite (print_even_and_accumulate_step i a x l Hx).
    cbn [runtime_loop] in H.
    destruct (x =? -999)%Z.
    + injection H as <- <-. reflexivity.
    + unfold int_add in H.
      destruct (is_int (a + x)); [|discriminate H].
      destruct (is_int (i + 1)); [|discriminate H].
      cbn [next_action is_a_break].
      exact (IH (i + 1)%Z (a + x)%Z _ r out H).
Qed.

(** X6. Whenever the run-time loop is defined on a vector of [int]s
    (no [int] sum overflows), the compile-time loop over the same numbers
    as [std::size_t] constants, from the same accumulator, returns the
    same accumulator and prints the same lines, each read in
    [std::size_t]: both stop at the first [-999] and both report the even
    numbers with their iteration. *)
Theorem compile_time_loop_matches_run_time_loop :
  forall (init : Z) (xs : list Z) (r : Z) (out : list (Z * Z)) (k : nat),
    forallb is_int xs = true ->
    print_even_and_accumulate_runtime init xs = Some (r, out) ->
    static_for (length xs + k) print_even_and_accumulate
      (to_size_t init) (map to_size_t xs) []
    = Returned (to_size_t r) (map line_to_size_t out).
Proof.
  intros init xs r out k Hxs H.
  destruct xs as [|x xs].
  - injection H as <- <-. reflexivity.
  - rewrite <- (length_map to_size_t (x :: xs)).
    cbn [map]. rewrite static_for_fold.
    exact (runtime_loop_fold (x :: xs) Hxs 0%Z init [] r out H).
Qed.

Lemma compile_time_loop_matches_run_time_loop_witness :
  static_for 4 print_even_and_accumulate
    (to_size_t 0) (map to_size_t [5; -4; -999; 36]%Z) []
  = Returned (to_size_t 1) (map line_to_size_t [(1, -4)]%Z).
Proof.
  apply (compile_time_loop_matches_run_time_loop 0 [5; -4; -999; 36]%Z 1
           [(1, -4)]%Z 0); reflexivity.
Defined.

(** ** What follows a break *)

Lemma fold_break_app {X Acc : Type} {HA : Accumulator Acc}
    (b : state Acc -> X -> state Acc)
    (xs ys : list X) :
  forall x s,
    next_action
      (fold_left b (firstn (visited b s (x :: xs)) (x :: xs)) s) = a_break ->
    visited b s ((x :: xs) ++ ys) = visited b s (x :: xs)
    /\ calls_of b s ((x :: xs) ++ ys) = calls_of b s (x :: xs)
    /\ firstn (visited b s (x :: xs)) ((x :: xs) ++ ys)
       = firstn (visited b s (x :: xs)) (x :: xs).
Proof.
  assert (forall (s : state Acc) x l,
             visited b s (x :: l)
             = S (if is_a_break (next_action (b s x)) then O
                  else visited b (b s x) l)) as Hvisited
    by reflexivity.
  assert (forall (s : state Acc) x l,
             calls_of b s (x :: l)
             = (s, x) :: (if is_a_break (next_action (b s x)) then []
                          else calls_of b (b s x) l)) as Hcalls
    by reflexivity.
  induction xs as [|y xs IH]; intros x s H;
    rewrite <- app_comm_cons, !(Hvisited s x), !(Hcalls s x);
    rewrite (Hvisited s x) in H;
    destruct (is_a_break (next_action (b s x))) eqn:E;
    try (repeat split; reflexivity).
  - simpl in H. rewrite H in E. discriminate E.
  - rewrite !firstn_cons in H |- *. simpl fold_left in H.
    destruct (IH y (b s x) H) as (Hv & Hc & Hf).
    rewrite Hv, Hc, Hf. repeat split; reflexivity.
Qed.

(** X11. When the loop over a sequence ends on a break, whatever is
    appended to the sequence changes nothing: the loop over the longer
    sequence makes the same calls and returns the same accumulator. *)
Theorem static_for_ignores_what_follows_a_break :
  forall (X Acc : Type) (HA : Accumulator Acc)
         (b : state Acc -> X -> state Acc) (init : Acc)
         (xs ys : list X) (k k' : nat),
    next_action
      (fold_left b
         (firstn (visited b (initial_state init) xs) xs)
         (initial_state init)) = a_break ->
    static_for (length (xs ++ ys) + k') (traced b) init (xs ++ ys) []
    = static_for (length xs + k) (traced b) init xs [].
Proof.
  intros X Acc HA b init xs ys k k' H.
  rewrite !static_for_traced.
  destruct xs as [|x xs]; [discriminate H|].
  destruct (fold_break_app b xs ys x (initial_state init) H)
    as (Hv & Hc & Hf).
  unfold loop_result. rewrite <- app_comm_cons.
  rewrite app_comm_cons, Hv, Hc, Hf. reflexivity.
Qed.

Lemma static_for_ignores_what_follows_a_break_witness :
  static_for 4 (traced add_unless_sentinel) 0%Z [5; -999; 15; 7]%Z []
  = static_for 2 (traced add_unless_sentinel) 0%Z [5; -999]%Z [].
Proof.
  apply (static_for_ignores_what_follows_a_break Z Z
           (compile_time_constants Z) add_unless_sentinel
           0%Z [5; -999]%Z [15; 7]%Z 0 0).
  reflexivity.
Defined.
